(** * Notes service (src/notes_backend/src/api/main.py)

    A shallow embedding of the FastAPI + SQLite notes backend.  The
    [notes] table is a list of rows in rowid order, the AUTOINCREMENT
    counter kept by SQLite in [sqlite_sequence] is [seq], and the wall
    clock read by [CURRENT_TIMESTAMP] is [clock] (seconds).  Pydantic
    request validation is run before the handler body, as FastAPI does. *)

From Stdlib Require Import ZArith List Bool Lia.
From Stdlib Require Import Sorting.Sorted Sorting.Permutation.
Import ListNotations.
Open Scope Z_scope.

(** Python [str]: a sequence of code points; [len] counts them. *)
Definition str := list Z.

(** SQLite [CURRENT_TIMESTAMP], as seconds; [datetime(...)] preserves its order. *)
Definition timestamp := Z.

(** A row of [notes] / the pydantic model [Note]; [_row_to_note] is the identity. *)
Record Note := mkNote {
  id : Z;
  title : str;
  content : str;
  created_at : timestamp;
  updated_at : timestamp
}.

Record state := mkState {
  notes : list Note;    (** the table, in rowid order *)
  seq : Z;              (** sqlite_sequence entry of [notes] *)
  clock : timestamp     (** the current time *)
}.

Inductive http_error := ValidationError | BadRequest | NotFound | ServerError.

Definition status_code (e : http_error) : Z :=
  match e with
  | ValidationError => 422
  | BadRequest => 400
  | NotFound => 404
  | ServerError => 500
  end.

Inductive result (A : Type) := Ok (a : A) | Err (e : http_error).
Arguments Ok {A} a.
Arguments Err {A} e.

(** ** Pydantic field constraints *)

(** A Python [str] holds code points; one decoded from a JSON [\ud800]
    escape can hold a lone surrogate (U+D800..U+DFFF).  pydantic-core reads
    a length-constrained [str] as UTF-8 and reports [string_unicode] (422)
    for such a string. *)
Definition is_surrogate (ch : Z) : bool := (55296 <=? ch) && (ch <=? 57343).

Definition py_str_utf8 (s : str) : bool := forallb (fun ch => negb (is_surrogate ch)) s.

(** [Field(..., min_length=1, max_length=200)] on [title]. *)
Definition title_ok (s : str) : bool :=
  py_str_utf8 s && (1 <=? length s)%nat && (length s <=? 200)%nat.

(** [Field(..., min_length=1)] on [content]. *)
Definition content_ok (s : str) : bool := py_str_utf8 s && (1 <=? length s)%nat.

(** [NoteCreate] / [NoteBase] validation. *)
Definition NoteCreate_valid (title content : str) : bool :=
  title_ok title && content_ok content.

(** [Optional[str] = Field(None, ...)]: [None] passes, a string is checked. *)
Definition opt_ok (p : str -> bool) (o : option str) : bool :=
  match o with None => true | Some s => p s end.

(** [NoteUpdate] validation. *)
Definition NoteUpdate_valid (title content : option str) : bool :=
  opt_ok title_ok title && opt_ok content_ok content.

(** [Query(100, ge=1, le=500)] and [Query(0, ge=0)]. *)
Definition list_query_valid (limit offset : Z) : bool :=
  (1 <=? limit) && (limit <=? 500) && (0 <=? offset).

(** ** SQL statements *)

Definition max_rowid : Z := 2 ^ 63 - 1.

(** sqlite3 binds a Python [int] parameter as a 64-bit INTEGER; outside
    that range the binding raises [OverflowError], a 500. *)
Definition sqlite_int_ok (z : Z) : bool := (- 2 ^ 63 <=? z) && (z <=? max_rowid).

(** [SELECT ... FROM notes WHERE id = ?] followed by [fetchone()]. *)
Definition select_by_id (tbl : list Note) (note_id : Z) : option Note :=
  find (fun n => id n =? note_id) tbl.

Definition max_id (tbl : list Note) : Z :=
  fold_right (fun n m => Z.max (id n) m) 0 tbl.

(** [INSERT INTO notes (title, content) VALUES (?, ?)] on an
    [INTEGER PRIMARY KEY AUTOINCREMENT] table: the new rowid is one more
    than the larger of the sequence entry and the largest rowid in use;
    when that exceeds the largest rowid the statement fails (SQLITE_FULL).
    Both timestamp columns take their default [CURRENT_TIMESTAMP], read
    once for the statement.  Returns [lastrowid] and the new state. *)
Definition sql_insert (st : state) (title content : str) : option (Z * state) :=
  let new_id := Z.max (seq st) (max_id (notes st)) + 1 in
  if max_rowid <? new_id then None
  else Some (new_id,
             mkState (notes st ++ [mkNote new_id title content (clock st) (clock st)])
                     new_id (clock st)).

Definition coalesce {A} (o : option A) (d : A) : A :=
  match o with Some x => x | None => d end.

(** [UPDATE notes SET title = COALESCE(?, title), content = COALESCE(?, content),
    updated_at = CURRENT_TIMESTAMP WHERE id = ?]. *)
Definition sql_update (tbl : list Note) (note_id : Z) (t c : option str)
    (now : timestamp) : list Note :=
  map (fun n => if id n =? note_id
                then mkNote (id n) (coalesce t (title n)) (coalesce c (content n))
                            (created_at n) now
                else n) tbl.

(** [DELETE FROM notes WHERE id = ?]. *)
Definition sql_delete (tbl : list Note) (note_id : Z) : list Note :=
  filter (fun n => negb (id n =? note_id)) tbl.

(** [ORDER BY datetime(updated_at) DESC, id DESC]: [a] may come before [b]. *)
Definition order_le (a b : Note) : bool :=
  (updated_at b <? updated_at a)
  || ((updated_at a =? updated_at b) && (id b <=? id a)).

Fixpoint insert_ordered (x : Note) (l : list Note) : list Note :=
  match l with
  | [] => [x]
  | y :: l' => if order_le x y then x :: l else y :: insert_ordered x l'
  end.

Fixpoint order_by (l : list Note) : list Note :=
  match l with
  | [] => []
  | x :: l' => insert_ordered x (order_by l')
  end.

(** ** Handlers.  Each returns its HTTP outcome and the state after it;
    a request rejected by pydantic never reaches the handler body. *)

(** [get_note]: the [SELECT] binds [note_id]. *)
Definition get_note (st : state) (note_id : Z) : result Note :=
  if negb (sqlite_int_ok note_id) then Err ServerError
  else
    match select_by_id (notes st) note_id with
    | None => Err NotFound
    | Some row => Ok row
    end.

(** [list_notes]: [LIMIT ? OFFSET ?] after the ordering. *)
Definition list_notes (st : state) (limit offset : Z) : result (list Note) :=
  if negb (list_query_valid limit offset) then Err ValidationError
  else if negb (sqlite_int_ok limit && sqlite_int_ok offset) then Err ServerError
  else Ok (firstn (Z.to_nat limit) (skipn (Z.to_nat offset) (order_by (notes st)))).

(** [create_note]: insert, commit, then re-select the row by [lastrowid];
    [_row_to_note(None)] would raise, hence the 500 branch. *)
Definition create_note (st : state) (title content : str) : result Note * state :=
  if negb (NoteCreate_valid title content) then (Err ValidationError, st)
  else
    match sql_insert st title content with
    | None => (Err ServerError, st)
    | Some (note_id, st') =>
        match select_by_id (notes st') note_id with
        | Some row => (Ok row, st')
        | None => (Err ServerError, st')
        end
    end.

Definition is_none {A} (o : option A) : bool :=
  match o with None => true | Some _ => false end.

(** [update_note]: 400 on an empty payload, then the existence [SELECT]
    (binding [note_id]) and 404 when no row has the id, then the [UPDATE],
    commit and re-select. *)
Definition update_note (st : state) (note_id : Z) (t c : option str)
    : result Note * state :=
  if negb (NoteUpdate_valid t c) then (Err ValidationError, st)
  else if is_none t && is_none c then (Err BadRequest, st)
  else if negb (sqlite_int_ok note_id) then (Err ServerError, st)
  else
    match select_by_id (notes st) note_id with
    | None => (Err NotFound, st)
    | Some _ =>
        let st' := mkState (sql_update (notes st) note_id t c (clock st))
                           (seq st) (clock st) in
        match select_by_id (notes st') note_id with
        | Some row => (Ok row, st')
        | None => (Err ServerError, st')
        end
    end.

(** [delete_note]: the [DELETE] (binding [note_id]) is committed, then
    [rowcount == 0] is 404. *)
Definition delete_note (st : state) (note_id : Z) : result unit * state :=
  if negb (sqlite_int_ok note_id) then (Err ServerError, st) else
  let tbl' := sql_delete (notes st) note_id in
  let st' := mkState tbl' (seq st) (clock st) in
  if (length (notes st) - length tbl' =? 0)%nat then (Err NotFound, st')
  else (Ok tt, st').

(** ** Requests and traces *)

Inductive request :=
  | Health
  | List (limit offset : Z)
  | Get (note_id : Z)
  | Create (title content : str)
  | Update (note_id : Z) (title content : option str)
  | Delete (note_id : Z)
  | Tick (d : N).          (** time passes between requests *)

Inductive response :=
  | RHealthy
  | RNotes (l : list Note)
  | RNote (n : Note)
  | RNoContent
  | RError (e : http_error).

Definition of_result {A} (k : A -> response) (r : result A) : response :=
  match r with Ok a => k a | Err e => RError e end.

Definition step (st : state) (q : request) : response * state :=
  match q with
  | Health => (RHealthy, st)
  | List l o => (of_result RNotes (list_notes st l o), st)
  | Get i => (of_result RNote (get_note st i), st)
  | Create t c => let (r, st') := create_note st t c in (of_result RNote r, st')
  | Update i t c => let (r, st') := update_note st i t c in (of_result RNote r, st')
  | Delete i => let (r, st') := delete_note st i in
                (of_result (fun _ => RNoContent) r, st')
  | Tick d => (RHealthy, mkState (notes st) (seq st) (clock st + Z.of_N d))
  end.

Fixpoint run (st : state) (qs : list request) : list (request * response) * state :=
  match qs with
  | [] => ([], st)
  | q :: qs' =>
      let (r, st1) := step st q in
      let (tr, st2) := run st1 qs' in
      ((q, r) :: tr, st2)
  end.

(** A freshly created schema: empty table, no sequence entry yet. *)
Definition init (t0 : timestamp) : state := mkState [] 0 t0.

Definition final_state (t0 : timestamp) (qs : list request) : state :=
  snd (run (init t0) qs).

Definition trace (t0 : timestamp) (qs : list request) : list (request * response) :=
  fst (run (init t0) qs).

(** Ids handed out by successful [Create] requests, in order. *)
Fixpoint assigned_ids (tr : list (request * response)) : list Z :=
  match tr with
  | [] => []
  | (Create _ _, RNote n) :: tr' => id n :: assigned_ids tr'
  | _ :: tr' => assigned_ids tr'
  end.

(** The note most recently returned for [i] by a [Create] or [Update]. *)
Definition lw_step (i : Z) (acc : option Note) (qr : request * response) : option Note :=
  match qr with
  | (Create _ _, RNote n) | (Update _ _ _, RNote n) => if id n =? i then Some n else acc
  | _ => acc
  end.

Definition last_write (tr : list (request * response)) (i : Z) : option Note :=
  fold_left (lw_step i) tr None.

(** ** Configuration from the environment *)

Definition comma : Z := 44.

(** Python's [str.isspace] on one code point ([Py_UNICODE_ISSPACE]). *)
Definition py_isspace (ch : Z) : bool :=
  ((9 <=? ch) && (ch <=? 13)) || ((28 <=? ch) && (ch <=? 32)) ||
  (ch =? 133) || (ch =? 160) || (ch =? 5760) ||
  ((8192 <=? ch) && (ch <=? 8202)) || (ch =? 8232) || (ch =? 8233) ||
  (ch =? 8239) || (ch =? 8287) || (ch =? 12288).

Fixpoint lstrip (s : str) : str :=
  match s with
  | [] => []
  | ch :: s' => if py_isspace ch then lstrip s' else s
  end.

(** [str.strip()]: whitespace removed at both ends. *)
Definition strip (s : str) : str := rev (lstrip (rev (lstrip s))).

(** [str.split(sep)] with a one-character separator. *)
Fixpoint split_sep (sep : Z) (s : str) : list str :=
  match s with
  | [] => [[]]
  | ch :: s' =>
      let parts := split_sep sep s' in
      if ch =? sep then [] :: parts
      else match parts with
           | p :: ps => (ch :: p) :: ps
           | [] => [[ch]]
           end
  end.

(** [_parse_csv_env]: [None] and [""] give [[]]; otherwise
    [[v.strip() for v in value.split(",") if v.strip()]]. *)
Definition _parse_csv_env (value : option str) : list str :=
  match value with
  | None | Some [] => []
  | Some v =>
      flat_map (fun p => match strip p with [] => [] | q => [q] end) (split_sep comma v)
  end.

(** [_parse_csv_env(os.getenv(...)) or ["*"]], as for [allowed_origins],
    [allowed_headers] and [allowed_methods]. *)
Definition allowed_list (env : option str) : list str :=
  match _parse_csv_env env with
  | [] => [[42]]
  | l => l
  end.

(** [",".join(parts)], used to state round trips. *)
Fixpoint join (sep : Z) (parts : list str) : str :=
  match parts with
  | [] => []
  | [p] => p
  | p :: ps => p ++ sep :: join sep ps
  end.

Example ex_parse :
  _parse_csv_env (Some [32; 97; 44; 9; 44; 98; 32; 99; 44]) = [[97]; [98; 32; 99]].
Proof. reflexivity. Qed.
Example ex_allowed : allowed_list (Some [44; 32]) = [[42]].
Proof. reflexivity. Qed.

Definition sA : str := [65].
Definition sB : str := [66].
Example ex_run :
  assigned_ids (trace 10 [Create sA sB; Tick 5; Create sB sA; Delete 1; Create sA sA]) = [1; 2; 3].
Proof. reflexivity. Qed.
Example ex_list :
  list_notes (final_state 10 [Create sA sB; Tick 5; Create sB sA; Create sA sA; Update 1 None (Some sA)]) 100 0
  = Ok [mkNote 3 sA sA 15 15; mkNote 2 sB sA 15 15; mkNote 1 sA sA 10 15].
Proof. reflexivity. Qed.

(** * Lemmas on the SQL statements *)

Lemma max_id_ge (tbl : list Note) (n : Note) : In n tbl -> id n <= max_id tbl.
Proof.
  induction tbl as [|m tbl IH]; simpl; [tauto|].
  intros [<-|H]; [lia|]. specialize (IH H). lia.
Qed.

Lemma max_id_nonneg (tbl : list Note) : 0 <= max_id tbl.
Proof. induction tbl; simpl; lia. Qed.

Lemma select_by_id_some (tbl : list Note) (i : Z) (n : Note) :
  select_by_id tbl i = Some n -> In n tbl /\ id n = i.
Proof.
  unfold select_by_id. intros H. split.
  - eapply find_some; eauto.
  - apply find_some in H. destruct H as [_ H]. now apply Z.eqb_eq.
Qed.

Lemma select_by_id_none (tbl : list Note) (i : Z) :
  select_by_id tbl i = None <-> (forall n, In n tbl -> id n <> i).
Proof.
  unfold select_by_id. split.
  - intros H n Hin Heq. apply (find_none _ _ H) in Hin. rewrite Heq, Z.eqb_refl in Hin.
    discriminate.
  - induction tbl as [|m tbl IH]; simpl; [reflexivity|]. intros H.
    destruct (id m =? i) eqn:E.
    + apply Z.eqb_eq in E. exfalso. exact (H m (or_introl eq_refl) E).
    + apply IH. intros n Hn. apply H. now right.
Qed.

Lemma select_by_id_in (tbl : list Note) (n : Note) :
  NoDup (map id tbl) -> In n tbl -> select_by_id tbl (id n) = Some n.
Proof.
  unfold select_by_id.
  induction tbl as [|m tbl IH]; simpl; [tauto|]. intros Hnd Hin. inversion Hnd; subst.
  destruct Hin as [<-|Hin].
  - now rewrite Z.eqb_refl.
  - destruct (id m =? id n) eqn:E.
    + apply Z.eqb_eq in E. exfalso. apply H1. rewrite E. now apply in_map.
    + now apply IH.
Qed.

Lemma select_by_id_app_l (l1 l2 : list Note) (i : Z) (n : Note) :
  select_by_id l1 i = Some n -> select_by_id (l1 ++ l2) i = Some n.
Proof.
  unfold select_by_id. induction l1 as [|m l1 IH]; simpl; [discriminate|].
  destruct (id m =? i); auto.
Qed.

Lemma select_by_id_app_r (l1 l2 : list Note) (i : Z) :
  select_by_id l1 i = None -> select_by_id (l1 ++ l2) i = select_by_id l2 i.
Proof.
  unfold select_by_id. induction l1 as [|m l1 IH]; simpl; [reflexivity|].
  destruct (id m =? i); [discriminate | auto].
Qed.

Lemma map_id_sql_update (tbl : list Note) (i : Z) t c now :
  map id (sql_update tbl i t c now) = map id tbl.
Proof.
  unfold sql_update. rewrite map_map. apply map_ext. intros n.
  destruct (id n =? i); reflexivity.
Qed.

Lemma in_sql_update (tbl : list Note) (i : Z) t c now (n' : Note) :
  In n' (sql_update tbl i t c now) ->
  exists n, In n tbl /\
    ((id n <> i /\ n' = n) \/
     (id n = i /\ n' = mkNote (id n) (coalesce t (title n)) (coalesce c (content n))
                              (created_at n) now)).
Proof.
  unfold sql_update. intros H. apply in_map_iff in H. destruct H as [n [Hn Hin]].
  exists n. split; [exact Hin|]. destruct (id n =? i) eqn:E.
  - right. apply Z.eqb_eq in E. auto.
  - left. apply Z.eqb_neq in E. auto.
Qed.

Lemma select_sql_update_same (tbl : list Note) (i : Z) t c now (n : Note) :
  select_by_id tbl i = Some n ->
  select_by_id (sql_update tbl i t c now) i =
  Some (mkNote i (coalesce t (title n)) (coalesce c (content n)) (created_at n) now).
Proof.
  unfold select_by_id, sql_update. induction tbl as [|m tbl IH]; simpl; [discriminate|].
  destruct (id m =? i) eqn:E; simpl.
  - intros [= <-]. rewrite ?E. simpl. rewrite ?E. apply Z.eqb_eq in E. now rewrite E.
  - rewrite ?E. exact IH.
Qed.

Lemma select_sql_update_other (tbl : list Note) (i j : Z) t c now :
  j <> i -> select_by_id (sql_update tbl i t c now) j = select_by_id tbl j.
Proof.
  intros Hji. unfold select_by_id, sql_update. induction tbl as [|m tbl IH]; simpl; auto.
  destruct (id m =? i) eqn:E; simpl.
  - apply Z.eqb_eq in E. destruct (id m =? j) eqn:F.
    + apply Z.eqb_eq in F. lia.
    + exact IH.
  - rewrite IH. reflexivity.
Qed.

Lemma in_sql_delete (tbl : list Note) (i : Z) (n : Note) :
  In n (sql_delete tbl i) <-> In n tbl /\ id n <> i.
Proof.
  unfold sql_delete. rewrite filter_In. rewrite negb_true_iff, Z.eqb_neq. tauto.
Qed.

Lemma select_sql_delete_same (tbl : list Note) (i : Z) :
  select_by_id (sql_delete tbl i) i = None.
Proof.
  apply select_by_id_none. intros n Hn. now apply in_sql_delete in Hn.
Qed.

Lemma select_sql_delete_other (tbl : list Note) (i j : Z) :
  j <> i -> select_by_id (sql_delete tbl i) j = select_by_id tbl j.
Proof.
  intros Hji. unfold select_by_id, sql_delete. induction tbl as [|m tbl IH]; simpl; auto.
  destruct (id m =? i) eqn:E; simpl.
  - apply Z.eqb_eq in E. destruct (id m =? j) eqn:F.
    + apply Z.eqb_eq in F. lia.
    + exact IH.
  - destruct (id m =? j); auto.
Qed.

Lemma NoDup_map_filter {B : Type} (f : Note -> B) (p : Note -> bool) (l : list Note) :
  NoDup (map f l) -> NoDup (map f (filter p l)).
Proof.
  induction l as [|x l IH]; simpl; auto. intros H. inversion H; subst.
  destruct (p x); simpl; auto. constructor; auto.
  intros Hin. apply H2. apply in_map_iff in Hin. destruct Hin as [y [Hy Hin]].
  apply filter_In in Hin. rewrite <- Hy. apply in_map. tauto.
Qed.

Lemma sql_delete_length_eq (tbl : list Note) (i : Z) :
  length (sql_delete tbl i) = length tbl -> select_by_id tbl i = None.
Proof.
  unfold sql_delete, select_by_id. induction tbl as [|m tbl IH]; simpl; auto.
  destruct (id m =? i); simpl.
  - intros H. pose proof (filter_length_le (fun n => negb (id n =? i)) tbl). lia.
  - intros H. apply IH. lia.
Qed.

(** * The invariant of reachable states *)

Definition row_ok (st : state) (n : Note) : Prop :=
  0 < id n <= seq st /\
  title_ok (title n) = true /\ content_ok (content n) = true /\
  created_at n <= updated_at n <= clock st.

Record Inv (st : state) : Prop := {
  inv_nodup : NoDup (map id (notes st));
  inv_seq : 0 <= seq st;
  inv_seq_max : seq st <= max_rowid;
  inv_rows : Forall (row_ok st) (notes st)
}.

Lemma Inv_init (t0 : timestamp) : Inv (init t0).
Proof. constructor; simpl; auto using NoDup_nil; unfold max_rowid; lia. Qed.

Lemma sql_insert_spec (st : state) t c new_id st' :
  sql_insert st t c = Some (new_id, st') ->
  new_id = Z.max (seq st) (max_id (notes st)) + 1 /\ new_id <= max_rowid /\
  st' = mkState (notes st ++ [mkNote new_id t c (clock st) (clock st)]) new_id (clock st).
Proof.
  unfold sql_insert. destruct (max_rowid <? _) eqn:E; [discriminate|].
  intros [= <- <-]. apply Z.ltb_ge in E. auto.
Qed.

Lemma sql_insert_fresh (st : state) t c new_id st' (n : Note) :
  sql_insert st t c = Some (new_id, st') -> In n (notes st) -> id n < new_id.
Proof.
  intros H Hin. apply sql_insert_spec in H. destruct H as [-> _].
  pose proof (max_id_ge _ _ Hin). lia.
Qed.

(** The outcome of [create_note] when the insert goes through. *)
Lemma create_note_insert (st : state) t c new_id st' :
  NoteCreate_valid t c = true -> sql_insert st t c = Some (new_id, st') ->
  create_note st t c = (Ok (mkNote new_id t c (clock st) (clock st)), st').
Proof.
  intros Hv Hi. unfold create_note. rewrite Hv, Hi. simpl.
  pose proof Hi as Hs. apply sql_insert_spec in Hs. destruct Hs as [_ [_ ->]]. simpl.
  rewrite select_by_id_app_r.
  - unfold select_by_id. simpl. now rewrite Z.eqb_refl.
  - apply select_by_id_none. intros n Hn. pose proof (sql_insert_fresh _ _ _ _ _ _ Hi Hn). lia.
Qed.

Lemma create_note_cases (st : state) t c :
  create_note st t c = (Err ValidationError, st) /\ NoteCreate_valid t c = false \/
  create_note st t c = (Err ServerError, st) /\ sql_insert st t c = None \/
  exists new_id st', NoteCreate_valid t c = true /\ sql_insert st t c = Some (new_id, st') /\
    create_note st t c = (Ok (mkNote new_id t c (clock st) (clock st)), st').
Proof.
  destruct (NoteCreate_valid t c) eqn:V.
  - destruct (sql_insert st t c) as [[new_id st']|] eqn:I.
    + right. right. exists new_id, st'. split; [reflexivity|]. split; [reflexivity|].
      now apply create_note_insert.
    + right. left. unfold create_note. now rewrite V, I.
  - left. unfold create_note. now rewrite V.
Qed.

Lemma update_note_cases (st : state) i t c :
  update_note st i t c = (Err ValidationError, st) /\ NoteUpdate_valid t c = false \/
  update_note st i t c = (Err BadRequest, st) /\ NoteUpdate_valid t c = true /\
    is_none t && is_none c = true \/
  update_note st i t c = (Err ServerError, st) /\ NoteUpdate_valid t c = true /\
    is_none t && is_none c = false /\ sqlite_int_ok i = false \/
  update_note st i t c = (Err NotFound, st) /\ NoteUpdate_valid t c = true /\
    is_none t && is_none c = false /\ sqlite_int_ok i = true /\
    select_by_id (notes st) i = None \/
  exists old, NoteUpdate_valid t c = true /\ is_none t && is_none c = false /\
    sqlite_int_ok i = true /\ select_by_id (notes st) i = Some old /\
    update_note st i t c =
      (Ok (mkNote i (coalesce t (title old)) (coalesce c (content old))
                  (created_at old) (clock st)),
       mkState (sql_update (notes st) i t c (clock st)) (seq st) (clock st)).
Proof.
  unfold update_note.
  destruct (NoteUpdate_valid t c) eqn:V; [|left; auto]. simpl.
  destruct (is_none t && is_none c) eqn:E; [right; left; auto|].
  destruct (sqlite_int_ok i) eqn:B; [|right; right; left; auto]. simpl.
  destruct (select_by_id (notes st) i) as [old|] eqn:S;
    [|right; right; right; left; auto].
  right. right. right. right. exists old. repeat split; auto. simpl.
  now rewrite (select_sql_update_same _ _ _ _ _ _ S).
Qed.

Lemma row_ok_mono (st st' : state) (n : Note) :
  seq st <= seq st' -> clock st <= clock st' -> row_ok st n -> row_ok st' n.
Proof. unfold row_ok. intros H1 H2 [H3 [H4 [H5 H6]]]. repeat split; auto; lia. Qed.

Lemma opt_ok_coalesce (p : str -> bool) (o : option str) (d : str) :
  opt_ok p o = true -> p d = true -> p (coalesce o d) = true.
Proof. destruct o; simpl; auto. Qed.

Lemma Inv_create (st : state) t c :
  Inv st -> Inv (snd (create_note st t c)).
Proof.
  intros [Hnd Hseq Hmax Hrows].
  destruct (create_note_cases st t c)
    as [[-> _]|[[-> _]|[new_id [st' [V [I ->]]]]]]; simpl; try (constructor; assumption).
  pose proof I as Hs. apply sql_insert_spec in Hs. destruct Hs as [Hid [Hle ->]].
  pose proof (max_id_nonneg (notes st)).
  unfold NoteCreate_valid in V. apply andb_true_iff in V. destruct V as [Vt Vc].
  constructor; simpl.
  - rewrite map_app. simpl. apply (Permutation_NoDup (Permutation_cons_append _ _)).
    constructor; auto. intros Hin. apply in_map_iff in Hin. destruct Hin as [n [Hn Hin]].
    pose proof (sql_insert_fresh _ _ _ _ _ _ I Hin). lia.
  - lia.
  - exact Hle.
  - apply Forall_app. split.
    + eapply Forall_impl; [|exact Hrows]. intros n. apply row_ok_mono; simpl; lia.
    + constructor; [|constructor]. unfold row_ok; simpl. repeat split; auto; lia.
Qed.

Lemma Inv_update (st : state) i t c :
  Inv st -> Inv (snd (update_note st i t c)).
Proof.
  intros [Hnd Hseq Hmax Hrows].
  destruct (update_note_cases st i t c)
    as [[-> _]|[[-> _]|[[-> _]|[[-> _]|[old [V [_ [_ [S ->]]]]]]]]];
    simpl; try (constructor; assumption).
  unfold NoteUpdate_valid in V. apply andb_true_iff in V. destruct V as [Vt Vc].
  constructor; simpl.
  - now rewrite map_id_sql_update.
  - exact Hseq.
  - exact Hmax.
  - apply Forall_forall. intros n' Hin.
    apply in_sql_update in Hin. destruct Hin as [n [Hin [[_ ->]|[_ ->]]]];
      rewrite Forall_forall in Hrows; specialize (Hrows n Hin).
    + exact Hrows.
    + unfold row_ok in *; simpl. destruct Hrows as [H1 [H2 [H3 H4]]].
      repeat split; try lia; now apply opt_ok_coalesce.
Qed.

Lemma Inv_delete (st : state) i :
  Inv st -> Inv (snd (delete_note st i)).
Proof.
  intros [Hnd Hseq Hmax Hrows].
  assert (Inv (mkState (sql_delete (notes st) i) (seq st) (clock st))) as H.
  { constructor; simpl.
    - now apply NoDup_map_filter.
    - exact Hseq.
    - exact Hmax.
    - apply Forall_forall. intros n Hin. apply in_sql_delete in Hin.
      rewrite Forall_forall in Hrows. apply (Hrows n). tauto. }
  unfold delete_note. destruct (sqlite_int_ok i); simpl; [|constructor; assumption].
  destruct (_ =? _)%nat; exact H.
Qed.

Lemma Inv_step (st : state) (q : request) : Inv st -> Inv (snd (step st q)).
Proof.
  intros HI. destruct q; simpl; try exact HI.
  - pose proof (Inv_create st title0 content0 HI). destruct (create_note _ _ _); exact H.
  - pose proof (Inv_update st note_id title0 content0 HI).
    destruct (update_note _ _ _ _); exact H.
  - pose proof (Inv_delete st note_id HI). destruct (delete_note _ _); exact H.
  - destruct HI as [Hnd Hseq Hmax Hrows]. constructor; simpl; auto.
    eapply Forall_impl; [|exact Hrows]. intros n. apply row_ok_mono; simpl; lia.
Qed.

Lemma run_final (st : state) (qs : list request) :
  snd (run st qs) = fold_left (fun s q => snd (step s q)) qs st.
Proof.
  revert st. induction qs as [|q qs IH]; intros st; simpl; auto.
  destruct (step st q) as [r st1] eqn:E. destruct (run st1 qs) as [tr st2] eqn:F.
  simpl. rewrite <- IH, F. reflexivity.
Qed.

Lemma Inv_run (st : state) (qs : list request) : Inv st -> Inv (snd (run st qs)).
Proof.
  rewrite run_final. revert st. induction qs as [|q qs IH]; intros st HI; simpl; auto.
  apply IH. now apply Inv_step.
Qed.

Lemma Inv_reachable (t0 : timestamp) (qs : list request) : Inv (final_state t0 qs).
Proof. apply Inv_run, Inv_init. Qed.

(** * ORDER BY *)

(** Strictly before in [ORDER BY updated_at DESC, id DESC]. *)
Definition before (a b : Note) : Prop :=
  updated_at b < updated_at a \/ (updated_at a = updated_at b /\ id b < id a).

Definition precedes (a b : Note) : Prop := order_le a b = true.

Lemma order_le_spec (a b : Note) :
  order_le a b = true <->
  updated_at b < updated_at a \/ (updated_at a = updated_at b /\ id b <= id a).
Proof.
  unfold order_le. rewrite orb_true_iff, andb_true_iff, Z.ltb_lt, Z.eqb_eq, Z.leb_le.
  tauto.
Qed.

Lemma order_le_total (a b : Note) : order_le a b = false -> order_le b a = true.
Proof.
  intros H. apply order_le_spec.
  destruct (order_le a b) eqn:E; [discriminate|].
  assert (~ (updated_at b < updated_at a \/ (updated_at a = updated_at b /\ id b <= id a)))
    as Hn by (rewrite <- order_le_spec; congruence).
  lia.
Qed.

Lemma precedes_trans (a b c : Note) : precedes a b -> precedes b c -> precedes a c.
Proof. unfold precedes. rewrite !order_le_spec. lia. Qed.

Lemma insert_ordered_perm (x : Note) (l : list Note) :
  Permutation (insert_ordered x l) (x :: l).
Proof.
  induction l as [|y l IH]; simpl; auto.
  destruct (order_le x y); auto.
  eapply perm_trans; [apply perm_skip, IH|]. apply perm_swap.
Qed.

Lemma order_by_perm (l : list Note) : Permutation (order_by l) l.
Proof.
  induction l as [|x l IH]; simpl; auto.
  eapply perm_trans; [apply insert_ordered_perm|]. now apply perm_skip.
Qed.

Lemma insert_ordered_sorted (x : Note) (l : list Note) :
  Sorted precedes l -> Sorted precedes (insert_ordered x l).
Proof.
  induction 1 as [|y l Hs IH Hhd]; simpl; auto.
  destruct (order_le x y) eqn:E.
  - constructor; [now constructor|]. now constructor.
  - constructor; [exact IH|]. apply order_le_total in E.
    destruct l as [|z l]; simpl.
    + constructor. exact E.
    + inversion Hhd; subst. destruct (order_le x z); constructor; auto.
Qed.

Lemma order_by_sorted (l : list Note) : Sorted precedes (order_by l).
Proof. induction l; simpl; auto using insert_ordered_sorted. Qed.

Lemma strongly_sorted_before (S : list Note) :
  StronglySorted precedes S -> NoDup (map id S) -> StronglySorted before S.
Proof.
  induction 1 as [|a S Hs IH Hall]; simpl; intros Hnd; constructor;
    inversion Hnd; subst; auto.
  apply Forall_forall. intros b Hb. rewrite Forall_forall in Hall.
  specialize (Hall b Hb). unfold precedes in Hall. rewrite order_le_spec in Hall.
  assert (id a <> id b) by (intros E; apply H1; rewrite E; now apply in_map).
  unfold before. lia.
Qed.



Lemma max_id_le (tbl : list Note) (s : Z) :
  0 <= s -> Forall (fun n => id n <= s) tbl -> max_id tbl <= s.
Proof. intros Hs H. induction H; simpl; lia. Qed.

Lemma Inv_max_id (st : state) : Inv st -> max_id (notes st) <= seq st.
Proof.
  intros [_ Hseq _ Hrows]. apply max_id_le; auto.
  eapply Forall_impl; [|exact Hrows]. unfold row_ok. intros n H. lia.
Qed.

(** Every stored id binds as a 64-bit SQLite integer. *)
Lemma Inv_id_int (st : state) (n : Note) :
  Inv st -> In n (notes st) -> sqlite_int_ok (id n) = true.
Proof.
  intros [_ _ Hmax Hrows] Hin. rewrite Forall_forall in Hrows.
  destruct (Hrows n Hin) as [Hid _]. unfold sqlite_int_ok.
  rewrite andb_true_iff, !Z.leb_le. lia.
Qed.

Lemma Inv_select_int (st : state) (i : Z) (n : Note) :
  Inv st -> select_by_id (notes st) i = Some n -> sqlite_int_ok i = true.
Proof.
  intros HI Hs. apply select_by_id_some in Hs. destruct Hs as [Hin <-].
  exact (Inv_id_int st n HI Hin).
Qed.

Lemma NoDup_map_id_eq (l : list Note) (a b : Note) :
  NoDup (map id l) -> In a l -> In b l -> id a = id b -> a = b.
Proof.
  intros Hnd Ha Hb Hab. apply select_by_id_in in Ha, Hb; auto. congruence.
Qed.


Lemma list_bind_ok (limit offset : Z) :
  list_query_valid limit offset = true -> offset <= max_rowid ->
  sqlite_int_ok limit && sqlite_int_ok offset = true.
Proof.
  unfold list_query_valid, sqlite_int_ok, max_rowid.
  rewrite !andb_true_iff, !Z.leb_le. lia.
Qed.

(** * Claims *)


(** C3: on every reachable state, a valid Create request (title of 1..200
    characters, non-empty content, neither holding a lone surrogate) succeeds unless the AUTOINCREMENT
    sequence is exhausted; it returns the stored row, whose id is positive
    and not held by any row before, whose title and content are those sent,
    and whose [created_at] equals its [updated_at]; ids stay unique. *)
Theorem create_note_assigns (t0 : timestamp) (qs : list request) (t c : str) :
  NoteCreate_valid t c = true -> seq (final_state t0 qs) < max_rowid ->
  exists n st', create_note (final_state t0 qs) t c = (Ok n, st') /\
    0 < id n /\ ~ In (id n) (map id (notes (final_state t0 qs))) /\
    title n = t /\ content n = c /\ created_at n = updated_at n /\
    select_by_id (notes st') (id n) = Some n /\ NoDup (map id (notes st')).
Proof.
  intros Hv Hmax. pose proof (Inv_reachable t0 qs) as HI.
  set (st := final_state t0 qs) in *.
  pose proof (Inv_max_id st HI) as Hm. pose proof (inv_seq st HI) as Hs.
  destruct (sql_insert st t c) as [[new_id st']|] eqn:I.
  - pose proof I as Hsp. apply sql_insert_spec in Hsp. destruct Hsp as [Hid [_ Hst']].
    pose proof (create_note_insert st t c new_id st' Hv I) as Hc.
    pose proof (Inv_create st t c HI) as HI'. rewrite Hc in HI'. simpl in HI'.
    exists (mkNote new_id t c (clock st) (clock st)), st'. simpl.
    repeat split; auto.
    + lia.
    + intros Hin. apply in_map_iff in Hin. destruct Hin as [n [Hn Hin]].
      pose proof (sql_insert_fresh _ _ _ _ _ _ I Hin). lia.
    + try subst st'. simpl.
      exact (select_by_id_in _ _ (inv_nodup _ HI')
               (in_or_app _ _ _ (or_intror (in_eq _ _)))).
    + exact (inv_nodup _ HI').
  - exfalso. unfold sql_insert in I. destruct (max_rowid <? _) eqn:E; [|discriminate].
    apply Z.ltb_lt in E. lia.
Qed.


(** C6: an Update supplying neither title nor content ends in BadRequest
    (400) and leaves the state as it was. *)
Theorem update_empty_payload (st : state) (i : Z) :
  update_note st i None None = (Err BadRequest, st) /\
  snd (step st (Update i None None)) = st /\
  status_code BadRequest = 400.
Proof. unfold step, update_note. simpl. auto. Qed.

(** C10: the empty-payload check comes before the existence check: on an
    id no row has, an empty Update is BadRequest (400), not NotFound, while
    Get of that id (when it binds as a 64-bit integer) is NotFound. *)
Theorem update_empty_before_missing (st : state) (i : Z) :
  select_by_id (notes st) i = None ->
  fst (update_note st i None None) = Err BadRequest /\
  status_code BadRequest = 400 /\
  (sqlite_int_ok i = true -> get_note st i = Err NotFound).
Proof.
  intros Hn. repeat split. intros Hb. unfold get_note. now rewrite Hb, Hn.
Qed.

(** C7: every row of every reachable table has a title of 1..200
    characters and non-empty content; a Create or Update carrying an empty
    title or content is a ValidationError (422) and changes nothing. *)
Theorem persisted_fields_valid (t0 : timestamp) (qs : list request) :
  Forall (fun n => (1 <= length (title n) <= 200)%nat /\ (1 <= length (content n))%nat)
         (notes (final_state t0 qs)) /\
  (forall st t c, (t = [] \/ c = []) -> create_note st t c = (Err ValidationError, st)) /\
  (forall st i t c, (t = Some [] \/ c = Some []) ->
     update_note st i t c = (Err ValidationError, st)) /\
  status_code ValidationError = 422.
Proof.
  repeat split.
  - pose proof (inv_rows _ (Inv_reachable t0 qs)) as H.
    eapply Forall_impl; [|exact H]. unfold row_ok, title_ok, content_ok.
    intros n [_ [Ht [Hc _]]].
    apply andb_true_iff in Ht as [Ht Ht2]. apply andb_true_iff in Ht as [_ Ht1].
    apply andb_true_iff in Hc as [_ Hc].
    apply Nat.leb_le in Ht1, Ht2, Hc. lia.
  - intros st t c Hemp. unfold create_note, NoteCreate_valid.
    destruct Hemp as [->| ->]; simpl; [reflexivity|]. now rewrite andb_false_r.
  - intros st i t c Hemp. unfold update_note, NoteUpdate_valid.
    destruct Hemp as [->| ->]; simpl; [reflexivity|]. now rewrite andb_false_r.
Qed.

(** C1: on a reachable state, a valid Update (each supplied field within
    its length bounds and free of lone surrogates) of an existing id that
    supplies at least one field succeeds; a supplied field takes the sent
    value, an omitted one keeps its stored value ([COALESCE]), [created_at]
    is kept, [updated_at] becomes the current time and so does not go
    back, and every other row is untouched. *)
Theorem update_note_frame (t0 : timestamp) (qs : list request) (i : Z)
    (t c : option str) (old : Note) :
  select_by_id (notes (final_state t0 qs)) i = Some old ->
  NoteUpdate_valid t c = true -> is_none t && is_none c = false ->
  exists n st', update_note (final_state t0 qs) i t c = (Ok n, st') /\
    id n = i /\
    title n = coalesce t (title old) /\ content n = coalesce c (content old) /\
    created_at n = created_at old /\
    updated_at n = clock (final_state t0 qs) /\ updated_at old <= updated_at n /\
    select_by_id (notes st') i = Some n /\
    (forall j, j <> i -> select_by_id (notes st') j = select_by_id (notes (final_state t0 qs)) j).
Proof.
  intros Hs Hv He. pose proof (Inv_reachable t0 qs) as HI.
  set (st := final_state t0 qs) in *.
  assert (Hold : updated_at old <= clock st).
  { apply select_by_id_some in Hs. destruct Hs as [Hin _].
    pose proof (inv_rows _ HI) as Hr. rewrite Forall_forall in Hr.
    destruct (Hr old Hin) as [_ [_ [_ Ht]]]. lia. }
  pose proof (Inv_select_int st i old HI Hs) as Hb.
  destruct (update_note_cases st i t c)
    as [[_ V]|[[_ [_ E]]|[[_ [_ [_ B]]]|[[_ [_ [_ [_ N]]]]|[old' [_ [_ [_ [S' Hu]]]]]]]]];
    [congruence|congruence|congruence|congruence|].
  rewrite Hs in S'. injection S' as <-.
  eexists _, _. split; [exact Hu|]. simpl. repeat split; auto.
  - now apply select_sql_update_same.
  - intros j Hj. now apply select_sql_update_other.
Qed.

Definition is_update_of (q : request) (i : Z) : Prop :=
  exists t c, q = Update i t c.

Definition is_create (q : request) : Prop :=
  exists t c, q = Create t c.

(** Where a row after one request comes from. *)
Lemma step_rows (st : state) (q : request) (n' : Note) :
  In n' (notes (snd (step st q))) ->
  In n' (notes st) \/
  (exists n, In n (notes st) /\ is_update_of q (id n) /\ id n' = id n /\
     created_at n' = created_at n /\ updated_at n' = clock st) \/
  (is_create q /\ max_id (notes st) < id n' /\ seq st < id n').
Proof.
  destruct q as [| | |t c|i t c|i|d]; simpl; auto.
  - destruct (create_note_cases st t c)
      as [[-> _]|[[-> _]|[new_id [st' [_ [I ->]]]]]]; simpl; auto.
    apply sql_insert_spec in I. destruct I as [Hid [_ ->]]. simpl.
    intros Hin. apply in_app_or in Hin. destruct Hin as [Hin|[<-|[]]]; [now left|].
    right. right. split; [now exists t, c|]. simpl. lia.
  - destruct (update_note_cases st i t c)
      as [[-> _]|[[-> _]|[[-> _]|[[-> _]|[old [_ [_ [_ [_ ->]]]]]]]]]; simpl; auto.
    intros Hin. apply in_sql_update in Hin.
    destruct Hin as [n [Hin [[_ ->]|[Hi ->]]]]; [now left|].
    right. left. exists n. simpl. repeat split; auto. exists t, c. now rewrite Hi.
  - intros Hin. left. unfold delete_note in Hin.
    destruct (sqlite_int_ok i); simpl in Hin; [|exact Hin].
    destruct (_ =? _)%nat; simpl in Hin; apply in_sql_delete in Hin; tauto.
Qed.

(** Where an id before one request goes. *)
Lemma step_keeps_ids (st : state) (q : request) (n : Note) :
  In n (notes st) ->
  In (id n) (map id (notes (snd (step st q)))) \/ q = Delete (id n).
Proof.
  intros Hin. destruct q as [| | |t c|i t c|i|d]; simpl; try (left; now apply in_map).
  - left. destruct (create_note_cases st t c)
      as [[-> _]|[[-> _]|[new_id [st' [_ [I ->]]]]]]; simpl; try now apply in_map.
    apply sql_insert_spec in I. destruct I as [_ [_ ->]]. simpl.
    apply in_map, in_or_app. now left.
  - left. destruct (update_note_cases st i t c)
      as [[-> _]|[[-> _]|[[-> _]|[[-> _]|[old [_ [_ [_ [_ ->]]]]]]]]]; simpl; try now apply in_map.
    rewrite map_id_sql_update. now apply in_map.
  - destruct (Z.eq_dec (id n) i) as [->|Hne]; [now right|]. left.
    assert (In n (sql_delete (notes st) i)) by (apply in_sql_delete; auto).
    unfold delete_note. destruct (sqlite_int_ok i); simpl; [|now apply in_map].
    destruct (_ =? _)%nat; simpl; now apply in_map.
Qed.

Lemma seq_step (st : state) (q : request) : seq st <= seq (snd (step st q)).
Proof.
  destruct q as [| | |t c|i t c|i|d]; simpl; try lia.
  - destruct (create_note_cases st t c)
      as [[-> _]|[[-> _]|[new_id [st' [_ [I ->]]]]]]; simpl; try lia.
    apply sql_insert_spec in I. destruct I as [Hid [_ ->]]. simpl. lia.
  - destruct (update_note_cases st i t c)
      as [[-> _]|[[-> _]|[[-> _]|[[-> _]|[old [_ [_ [_ [_ ->]]]]]]]]]; simpl; lia.
  - unfold delete_note. destruct (sqlite_int_ok i); simpl; [|lia].
    destruct (_ =? _)%nat; simpl; lia.
Qed.

(** A [Create] answered by a note hands out the new sequence value. *)
Lemma step_create_id (st : state) (t c : str) (n : Note) :
  fst (step st (Create t c)) = RNote n ->
  seq st < id n /\ id n = seq (snd (step st (Create t c))).
Proof.
  simpl. destruct (create_note_cases st t c)
    as [[-> _]|[[-> _]|[new_id [st' [_ [I ->]]]]]]; simpl; try discriminate.
  intros [= <-]. apply sql_insert_spec in I. destruct I as [Hid [_ ->]]. simpl. lia.
Qed.

(** C8: every row of every reachable table has [created_at <= updated_at];
    Create stores both timestamps equal; across any request a row keeps its
    [created_at], and its [updated_at] changes only under an Update of its
    id, which sets it to the current time. *)
Theorem timestamps_ordered (t0 : timestamp) (qs : list request) (q : request) :
  Forall (fun n => created_at n <= updated_at n) (notes (final_state t0 qs)) /\
  (forall t c n st', create_note (final_state t0 qs) t c = (Ok n, st') ->
     created_at n = updated_at n) /\
  (forall n n', In n (notes (final_state t0 qs)) ->
     In n' (notes (snd (step (final_state t0 qs) q))) -> id n' = id n ->
     created_at n' = created_at n /\
     (updated_at n' = updated_at n \/
      (is_update_of q (id n) /\ updated_at n' = clock (final_state t0 qs)))).
Proof.
  pose proof (Inv_reachable t0 qs) as HI. set (st := final_state t0 qs) in *.
  split; [|split].
  - eapply Forall_impl; [|exact (inv_rows _ HI)]. unfold row_ok. intros n H. lia.
  - intros t c n st' Hc.
    destruct (create_note_cases st t c)
      as [[E _]|[[E _]|[new_id [st'' [_ [_ E]]]]]]; rewrite Hc in E; try discriminate.
    injection E as E _. subst n. reflexivity.
  - intros n n' Hn Hn' Hid. pose proof (inv_nodup _ HI) as Hnd.
    destruct (step_rows st q n' Hn')
      as [Hin|[[m [Hm [Hq [Hmid [Hc Hu]]]]]|[_ [Hmax _]]]].
    + rewrite (NoDup_map_id_eq _ _ _ Hnd Hin Hn Hid). auto.
    + assert (m = n) as -> by exact (NoDup_map_id_eq _ _ _ Hnd Hm Hn ltac:(congruence)).
      split; [exact Hc|]. right. auto.
    + pose proof (max_id_ge _ _ Hn). lia.
Qed.

Lemma assigned_ids_run (st : state) (qs : list request) :
  Forall (fun i => seq st < i) (assigned_ids (fst (run st qs))) /\
  StronglySorted Z.lt (assigned_ids (fst (run st qs))).
Proof.
  revert st. induction qs as [|q qs IH]; intros st; simpl; [split; constructor|].
  destruct (step st q) as [r st1] eqn:E. destruct (run st1 qs) as [tr st2] eqn:F. simpl.
  destruct (IH st1) as [IH1 IH2]. rewrite F in IH1, IH2. simpl in IH1, IH2.
  pose proof (seq_step st q) as Hs. rewrite E in Hs. simpl in Hs.
  assert (Hlift : Forall (fun i => seq st < i) (assigned_ids tr)).
  { eapply Forall_impl; [|exact IH1]. intros i H. simpl in H. lia. }
  destruct q; try (split; assumption).
  destruct r; try (split; assumption).
  pose proof (step_create_id st title0 content0 n) as Hc. rewrite E in Hc.
  destruct (Hc eq_refl) as [Hlt Hn]. simpl in Hn.
  split; constructor; auto.
  eapply Forall_impl; [|exact IH1]. intros i H. simpl in H. lia.
Qed.

(** C9: the ids handed out by successive Creates strictly increase, so
    none is ever handed out twice (also after a Delete); the ids of every
    reachable table are distinct; across any request a row id either stays
    in the table or is the target of a Delete, and a row after the request
    either carries an id the table had before or is the one a Create just
    inserted, with an id above every id in use and the sequence value. *)
Theorem ids_unique_monotone (t0 : timestamp) (qs : list request) (q : request) :
  StronglySorted Z.lt (assigned_ids (trace t0 qs)) /\
  NoDup (map id (notes (final_state t0 qs))) /\
  (forall n, In n (notes (final_state t0 qs)) ->
     In (id n) (map id (notes (snd (step (final_state t0 qs) q)))) \/ q = Delete (id n)) /\
  (forall n', In n' (notes (snd (step (final_state t0 qs) q))) ->
     In (id n') (map id (notes (final_state t0 qs))) \/
     (is_create q /\ max_id (notes (final_state t0 qs)) < id n' /\
      seq (final_state t0 qs) < id n')).
Proof.
  repeat split.
  - apply assigned_ids_run.
  - exact (inv_nodup _ (Inv_reachable t0 qs)).
  - intros n Hn. now apply step_keeps_ids.
  - intros n' Hn'. destruct (step_rows _ q n' Hn') as [Hin|[[m [Hm [_ [Hid _]]]]|Hc]].
    + left. now apply in_map.
    + left. rewrite Hid. now apply in_map.
    + now right.
Qed.

Lemma lw_step_ok (st : state) (q : request) (i : Z) (acc : option Note) :
  (forall n, select_by_id (notes st) i = Some n -> acc = Some n) ->
  forall n, select_by_id (notes (snd (step st q))) i = Some n ->
  lw_step i acc (q, fst (step st q)) = Some n.
Proof.
  intros Hacc n. destruct q as [| | |t c|j t c|j|d]; simpl; auto.
  - destruct (create_note_cases st t c)
      as [[-> _]|[[-> _]|[new_id [st' [_ [I ->]]]]]]; simpl; auto.
    pose proof I as Hs. apply sql_insert_spec in Hs. destruct Hs as [_ [_ ->]]. simpl.
    assert (Hfresh : select_by_id (notes st) new_id = None).
    { apply select_by_id_none. intros m Hm.
      pose proof (sql_insert_fresh _ _ _ _ _ _ I Hm). lia. }
    destruct (Z.eq_dec new_id i) as [<-|Hne].
    + rewrite Z.eqb_refl, select_by_id_app_r by exact Hfresh.
      unfold select_by_id. simpl. now rewrite Z.eqb_refl.
    + apply Z.eqb_neq in Hne. rewrite Hne.
      destruct (select_by_id (notes st) i) as [m|] eqn:S.
      * rewrite (select_by_id_app_l _ _ _ _ S). intros H. apply Hacc. congruence.
      * rewrite select_by_id_app_r by exact S. unfold select_by_id. simpl.
        now rewrite Hne.
  - destruct (update_note_cases st j t c)
      as [[-> _]|[[-> _]|[[-> _]|[[-> _]|[old [_ [_ [_ [S ->]]]]]]]]]; simpl; auto.
    destruct (Z.eq_dec j i) as [<-|Hne].
    + rewrite Z.eqb_refl, (select_sql_update_same _ _ _ _ _ _ S). auto.
    + rewrite select_sql_update_other by congruence.
      apply Z.eqb_neq in Hne. rewrite Hne. auto.
  - assert (Hsel : select_by_id (notes (snd (delete_note st j))) i = Some n ->
                   select_by_id (notes st) i = Some n).
    { unfold delete_note. destruct (sqlite_int_ok j); simpl; [|auto].
      destruct (_ =? _)%nat; simpl;
        (destruct (Z.eq_dec i j) as [->|Hne];
         [rewrite select_sql_delete_same; discriminate
         |rewrite select_sql_delete_other by exact Hne; auto]). }
    destruct (delete_note st j) as [[[]|e] st'] eqn:E; simpl in *; auto.
Qed.

Lemma lw_run (qs : list request) (st : state) (i : Z) (acc : option Note) :
  (forall n, select_by_id (notes st) i = Some n -> acc = Some n) ->
  forall n, select_by_id (notes (snd (run st qs))) i = Some n ->
  fold_left (lw_step i) (fst (run st qs)) acc = Some n.
Proof.
  revert st acc. induction qs as [|q qs IH]; intros st acc Hacc; simpl; auto.
  pose proof (lw_step_ok st q i acc Hacc) as Hs.
  destruct (step st q) as [r st1] eqn:E. destruct (run st1 qs) as [tr st2] eqn:F.
  simpl in *. intros n Hn. specialize (IH st1 (lw_step i acc (q, r)) Hs).
  rewrite F in IH. exact (IH n Hn).
Qed.

(** C4: on every reachable state, when Get of an id returns a note, that
    note is exactly the one the most recent Create or Update of that id
    returned (and so wrote): same title, content and both timestamps. *)
Theorem get_returns_last_write (t0 : timestamp) (qs : list request) (i : Z) (n : Note) :
  get_note (final_state t0 qs) i = Ok n -> last_write (trace t0 qs) i = Some n.
Proof.
  unfold get_note, last_write, trace, final_state.
  destruct (negb (sqlite_int_ok i)); [discriminate|].
  destruct (select_by_id _ i) as [m|] eqn:S; [|discriminate]. intros [= <-].
  apply (lw_run qs (init t0) i None); [intros m0 H0; discriminate|exact S].
Qed.

(** * Witnesses: the theorems at concrete inputs *)

Lemma update_note_frame_witness :
  select_by_id (notes (final_state 10 [Create sA sB; Tick 5])) 1
    = Some (mkNote 1 sA sB 10 10) /\
  exists n st', update_note (final_state 10 [Create sA sB; Tick 5]) 1 (Some sB) None
                = (Ok n, st') /\
    id n = 1 /\ title n = sB /\ content n = sB /\ created_at n = 10 /\
    updated_at n = 15 /\ 10 <= updated_at n /\ select_by_id (notes st') 1 = Some n /\
    (forall j, j <> 1 -> select_by_id (notes st') j =
                         select_by_id (notes (final_state 10 [Create sA sB; Tick 5])) j).
Proof.
  split; [reflexivity|].
  apply (update_note_frame 10 [Create sA sB; Tick 5] 1 (Some sB) None
           (mkNote 1 sA sB 10 10)); reflexivity.
Defined.



Lemma create_note_assigns_witness :
  NoteCreate_valid sB sA = true /\ seq (final_state 10 [Create sA sB]) < max_rowid /\
  exists n st', create_note (final_state 10 [Create sA sB]) sB sA = (Ok n, st') /\
    0 < id n /\ ~ In (id n) (map id (notes (final_state 10 [Create sA sB]))) /\
    title n = sB /\ content n = sA /\ created_at n = updated_at n /\
    select_by_id (notes st') (id n) = Some n /\ NoDup (map id (notes st')).
Proof.
  split; [reflexivity|]. split; [reflexivity|].
  apply (create_note_assigns 10 [Create sA sB] sB sA); reflexivity.
Defined.

(** A title holding a lone surrogate is refused by validation (422) on
    Create and on Update, before any row is touched. *)
Lemma surrogate_title_rejected (st : state) :
  create_note st [55296] sB = (Err ValidationError, st) /\
  update_note st 1 (Some [55296]) None = (Err ValidationError, st).
Proof. split; reflexivity. Qed.

Lemma get_returns_last_write_witness :
  get_note (final_state 10 [Create sA sB; Tick 5; Update 1 (Some sB) None]) 1
    = Ok (mkNote 1 sB sB 10 15) /\
  last_write (trace 10 [Create sA sB; Tick 5; Update 1 (Some sB) None]) 1
    = Some (mkNote 1 sB sB 10 15).
Proof.
  split; [reflexivity|].
  apply (get_returns_last_write 10 [Create sA sB; Tick 5; Update 1 (Some sB) None] 1
           (mkNote 1 sB sB 10 15)); reflexivity.
Defined.



Lemma update_empty_before_missing_witness :
  select_by_id (notes (final_state 0 [Create sA sB])) 7 = None /\
  fst (update_note (final_state 0 [Create sA sB]) 7 None None) = Err BadRequest /\
  get_note (final_state 0 [Create sA sB]) 7 = Err NotFound.
Proof.
  split; [reflexivity|].
  destruct (update_empty_before_missing (final_state 0 [Create sA sB]) 7 eq_refl)
    as [H1 [_ H3]].
  split; [exact H1|]. exact (H3 eq_refl).
Defined.

(** * Further properties of the service *)

(** ** [_parse_csv_env] *)

Lemma lstrip_suffix (s : str) : exists p, s = p ++ lstrip s.
Proof.
  induction s as [|ch s IH]; simpl; [now exists []|].
  destruct (py_isspace ch); [|now exists []].
  destruct IH as [p Hp]. exists (ch :: p). simpl. now rewrite <- Hp.
Qed.

Lemma lstrip_head (s t : str) (ch : Z) : lstrip s = ch :: t -> py_isspace ch = false.
Proof.
  induction s as [|c s IH]; simpl; [discriminate|].
  destruct (py_isspace c) eqn:E; auto. intros [= <- _]. exact E.
Qed.

Lemma lstrip_idem (s : str) : lstrip (lstrip s) = lstrip s.
Proof.
  induction s as [|ch s IH]; simpl; auto.
  destruct (py_isspace ch) eqn:E; auto. simpl. now rewrite E.
Qed.

Lemma strip_idem (s : str) : strip (strip s) = strip s.
Proof.
  unfold strip. set (u := lstrip s). set (r := rev (lstrip (rev u))).
  assert (Hr : lstrip r = r).
  { destruct (lstrip_suffix (rev u)) as [p Hp].
    assert (Hu : u = r ++ rev p).
    { unfold r. rewrite <- (rev_involutive u) at 1. rewrite Hp at 1.
      now rewrite rev_app_distr. }
    destruct r as [|ch t] eqn:Er; simpl; auto.
    assert (Hh : py_isspace ch = false).
    { apply (lstrip_head s (t ++ rev p)). fold u. rewrite Hu. reflexivity. }
    now rewrite Hh. }
  rewrite Hr. unfold r. rewrite rev_involutive, lstrip_idem. reflexivity.
Qed.

Lemma strip_incl (s : str) (x : Z) : In x (strip s) -> In x s.
Proof.
  unfold strip. intros H. rewrite <- in_rev in H.
  destruct (lstrip_suffix (rev (lstrip s))) as [p Hp].
  assert (H0 : In x (rev (lstrip s))) by (rewrite Hp; apply in_or_app; now right).
  rewrite <- in_rev in H0.
  destruct (lstrip_suffix s) as [q Hq]. rewrite Hq. apply in_or_app. now right.
Qed.

Lemma split_sep_no_sep (sep : Z) (s p : str) : In p (split_sep sep s) -> ~ In sep p.
Proof.
  revert p. induction s as [|ch s IH]; simpl; intros p.
  - intros [<-|[]]. simpl. tauto.
  - destruct (ch =? sep) eqn:E.
    + intros [<-|H]; [simpl; tauto|]. now apply IH.
    + destruct (split_sep sep s) as [|q qs] eqn:Es.
      * intros [<-|[]]. simpl. apply Z.eqb_neq in E. intuition.
      * intros [<-|H].
        -- simpl. apply Z.eqb_neq in E. intros [Hc|Hc]; [congruence|].
           apply (IH q); [now left|exact Hc].
        -- apply IH. now right.
Qed.

Lemma split_sep_app (sep : Z) (p r : str) :
  ~ In sep p -> split_sep sep (p ++ sep :: r) = p :: split_sep sep r.
Proof.
  induction p as [|ch p IH]; simpl; intros Hp.
  - now rewrite Z.eqb_refl.
  - rewrite IH by tauto. destruct (ch =? sep) eqn:E; auto.
    apply Z.eqb_eq in E. tauto.
Qed.

Lemma split_sep_single (sep : Z) (p : str) : ~ In sep p -> split_sep sep p = [p].
Proof.
  induction p as [|ch p IH]; simpl; intros Hp; auto.
  rewrite IH by tauto. destruct (ch =? sep) eqn:E; auto.
  apply Z.eqb_eq in E. tauto.
Qed.

Lemma split_sep_join (sep : Z) (parts : list str) :
  parts <> [] -> Forall (fun p => ~ In sep p) parts -> split_sep sep (join sep parts) = parts.
Proof.
  induction parts as [|p ps IH]; intros Hne Hall; [congruence|].
  inversion Hall; subst. destruct ps as [|p' ps'].
  - simpl. now apply split_sep_single.
  - change (join sep (p :: p' :: ps')) with (p ++ sep :: join sep (p' :: ps')).
    rewrite split_sep_app by assumption. f_equal. apply IH; auto. discriminate.
Qed.

Lemma parse_entry (value : option str) (e : str) :
  In e (_parse_csv_env value) -> e <> [] /\ ~ In comma e /\ strip e = e.
Proof.
  destruct value as [[|ch v]|]; unfold _parse_csv_env; try (simpl; tauto).
  intros H. apply in_flat_map in H. destruct H as [p [Hp He]].
  destruct (strip p) as [|c t] eqn:Es; [destruct He|]. destruct He as [<-|[]].
  split; [discriminate|]. split.
  - intros Hc. apply (split_sep_no_sep comma _ _ Hp). apply strip_incl. now rewrite Es.
  - rewrite <- Es. apply strip_idem.
Qed.

Lemma join_nonempty (sep : Z) (e : str) (es : list str) :
  e <> [] -> join sep (e :: es) <> [].
Proof.
  destruct es; simpl; auto. destruct e; simpl; congruence.
Qed.

(** Every entry [_parse_csv_env] returns is non-empty, holds no comma and
    has no whitespace at either end. *)
Theorem parse_csv_env_entries (value : option str) :
  Forall (fun e => e <> [] /\ ~ In comma e /\ strip e = e) (_parse_csv_env value).
Proof. apply Forall_forall. intros e. apply parse_entry. Qed.

(** Writing the parsed entries back as one comma-joined value and parsing
    it again gives the same entries. *)
Theorem parse_csv_env_join (value : option str) :
  _parse_csv_env (Some (join comma (_parse_csv_env value))) = _parse_csv_env value.
Proof.
  pose proof (parse_csv_env_entries value) as Hall.
  destruct (_parse_csv_env value) as [|e es] eqn:E; [reflexivity|].
  inversion Hall as [|? ? [He _] _]; subst.
  destruct (join comma (e :: es)) as [|ch v] eqn:J;
    [exfalso; exact (join_nonempty comma e es He J)|].
  unfold _parse_csv_env at 1. rewrite <- J.
  rewrite split_sep_join.
  - clear J E. induction Hall as [|x xs [Hx [_ Hs]] _ IH]; [reflexivity|].
    simpl. rewrite Hs. destruct x as [|c t]; [congruence|]. simpl. now f_equal.
  - discriminate.
  - eapply Forall_impl; [|exact Hall]. simpl. tauto.
Qed.

(** The allowed origins, headers and methods are never empty: the parsed
    entries, or ["*"] when the variable parses to nothing; every entry is
    non-empty, comma-free and stripped. *)
Theorem allowed_list_spec (env : option str) :
  allowed_list env <> [] /\
  Forall (fun e => e <> [] /\ ~ In comma e /\ strip e = e) (allowed_list env) /\
  (_parse_csv_env env = [] -> allowed_list env = [[42]]) /\
  (_parse_csv_env env <> [] -> allowed_list env = _parse_csv_env env).
Proof.
  pose proof (parse_csv_env_entries env) as Hall. unfold allowed_list.
  destruct (_parse_csv_env env) as [|e es].
  - split; [discriminate|]. split; [|split; [reflexivity|congruence]].
    constructor; [|constructor]. split; [discriminate|]. split; [|reflexivity].
    simpl. unfold comma. intros [H|[]]. discriminate.
  - split; [discriminate|]. split; [exact Hall|]. split; [discriminate|reflexivity].
Qed.

(** ** Listing *)

Lemma firstn_add_split {T} (a b : nat) (l : list T) :
  firstn (a + b) l = firstn a l ++ firstn b (skipn a l).
Proof.
  revert l. induction a as [|a IH]; intros l; simpl; auto.
  destruct l; simpl; [now rewrite firstn_nil|]. now rewrite IH.
Qed.

Lemma in_firstn_incl {T} (k : nat) (l : list T) (x : T) : In x (firstn k l) -> In x l.
Proof. intros H. rewrite <- (firstn_skipn k l). apply in_or_app. now left. Qed.

Lemma in_skipn_incl {T} (k : nat) (l : list T) (x : T) : In x (skipn k l) -> In x l.
Proof. intros H. rewrite <- (firstn_skipn k l). apply in_or_app. now right. Qed.

Lemma strongly_sorted_before_unique (l1 l2 : list Note) :
  StronglySorted before l1 -> StronglySorted before l2 -> Permutation l1 l2 -> l1 = l2.
Proof.
  revert l2. induction l1 as [|x l1 IH]; intros l2 H1 H2 Hp.
  - symmetry. now apply Permutation_nil.
  - destruct l2 as [|y l2]; [apply Permutation_sym, Permutation_nil in Hp; discriminate|].
    inversion H1 as [|? ? S1 F1]; inversion H2 as [|? ? S2 F2]; subst.
    assert (x = y) as <-.
    { assert (Hx : In x (y :: l2)) by (eapply Permutation_in; [exact Hp|now left]).
      assert (Hy : In y (x :: l1))
        by (eapply Permutation_in; [symmetry; exact Hp|now left]).
      destruct Hx as [|Hx]; [now subst|]. destruct Hy as [|Hy]; [now subst|].
      rewrite Forall_forall in F1, F2. specialize (F1 y Hy). specialize (F2 x Hx).
      unfold before in F1, F2. lia. }
    f_equal. apply IH; auto. eapply Permutation_cons_inv. exact Hp.
Qed.

Lemma order_by_before (tbl : list Note) :
  NoDup (map id tbl) -> StronglySorted before (order_by tbl).
Proof.
  intros Hnd. apply strongly_sorted_before.
  - apply Sorted_StronglySorted; [intros a b c; apply precedes_trans|].
    apply order_by_sorted.
  - eapply Permutation_NoDup; [|exact Hnd]. apply Permutation_map.
    symmetry. apply order_by_perm.
Qed.

(** List reports 422 exactly when [limit] is outside 1..500 or [offset]
    is negative; otherwise it returns at most [limit] notes, all rows of
    the table. *)
Theorem list_notes_bounds (st : state) (limit offset : Z) :
  (list_notes st limit offset = Err ValidationError <->
   ~ (1 <= limit <= 500 /\ 0 <= offset)) /\
  (forall r, list_notes st limit offset = Ok r ->
     (length r <= Z.to_nat limit)%nat /\ incl r (notes st)).
Proof.
  unfold list_notes, list_query_valid.
  destruct ((1 <=? limit) && (limit <=? 500) && (0 <=? offset)) eqn:E;
    rewrite !andb_true_iff, !Z.leb_le in E || rewrite !andb_false_iff, !Z.leb_gt in E;
    simpl.
  - destruct (sqlite_int_ok limit && sqlite_int_ok offset); simpl; split.
    + split; [discriminate|]. intros H; exfalso; apply H; lia.
    + intros r [= <-]. split.
      * rewrite length_firstn. lia.
      * intros x Hx. apply in_firstn_incl, in_skipn_incl in Hx.
        eapply Permutation_in; [apply order_by_perm|exact Hx].
    + split; [discriminate|]. intros H; exfalso; apply H; lia.
    + intros r H; discriminate.
  - split; [split; [intros _; lia|reflexivity]|].
    intros r H; discriminate.
Qed.

(** Consecutive pages tile: the page of [a] notes at [offset] followed by
    the page of [b] notes at [offset + a] is the page of [a + b] notes at
    [offset]. *)
Theorem list_notes_pages (st : state) (a b offset : Z) :
  1 <= a -> 1 <= b -> a + b <= 500 -> 0 <= offset -> offset + a <= max_rowid ->
  exists r1 r2, list_notes st a offset = Ok r1 /\ list_notes st b (offset + a) = Ok r2 /\
    list_notes st (a + b) offset = Ok (r1 ++ r2).
Proof.
  intros Ha Hb Hab Ho Hm. unfold list_notes.
  assert (V : forall x y, 1 <= x <= 500 -> 0 <= y -> y <= max_rowid ->
            list_query_valid x y = true /\ sqlite_int_ok x && sqlite_int_ok y = true).
  { intros x y Hx Hy Hy'. assert (Hq : list_query_valid x y = true)
      by (unfold list_query_valid; rewrite !andb_true_iff, !Z.leb_le; lia).
    split; [exact Hq|]. now apply list_bind_ok. }
  destruct (V a offset) as [-> ->]; [lia|lia|lia|].
  destruct (V b (offset + a)) as [-> ->]; [lia|lia|lia|].
  destruct (V (a + b) offset) as [-> ->]; [lia|lia|lia|]. simpl. eexists _, _. split; [reflexivity|]. split; [reflexivity|].
  rewrite Z2Nat.inj_add, firstn_add_split, skipn_skipn, <- Z2Nat.inj_add by lia.
  do 3 f_equal. f_equal. f_equal. lia.
Qed.

(** When [limit] covers the whole table, List at offset 0 returns every
    row exactly once. *)
Theorem list_notes_complete (st : state) (limit : Z) :
  1 <= limit <= 500 -> (length (notes st) <= Z.to_nat limit)%nat ->
  exists r, list_notes st limit 0 = Ok r /\ Permutation r (notes st).
Proof.
  intros Hl Hlen. unfold list_notes.
  assert (Hq : list_query_valid limit 0 = true)
    by (unfold list_query_valid; rewrite !andb_true_iff, !Z.leb_le; lia).
  rewrite Hq, (list_bind_ok limit 0 Hq) by (unfold max_rowid; lia). simpl. eexists. split; [reflexivity|].
  rewrite firstn_all2; [apply order_by_perm|].
  rewrite (Permutation_length (order_by_perm (notes st))). exact Hlen.
Qed.

(** With distinct ids the listing does not depend on the order the rows
    are stored in. *)
Theorem list_notes_storage_order (st1 st2 : state) (limit offset : Z) :
  Permutation (notes st1) (notes st2) -> NoDup (map id (notes st1)) ->
  list_notes st1 limit offset = list_notes st2 limit offset.
Proof.
  intros Hp Hnd. unfold list_notes.
  assert (Hnd2 : NoDup (map id (notes st2)))
    by (eapply Permutation_NoDup; [apply Permutation_map; exact Hp|exact Hnd]).
  rewrite (strongly_sorted_before_unique (order_by (notes st1)) (order_by (notes st2))).
  - reflexivity.
  - now apply order_by_before.
  - now apply order_by_before.
  - eapply perm_trans; [apply order_by_perm|].
    eapply perm_trans; [exact Hp|]. symmetry. apply order_by_perm.
Qed.

(** ** Create, Update and Delete *)

(** On a reachable state, a note just created comes first in List at
    offset 0: its [updated_at] is the current time, which no stored row
    exceeds, and its id is above every id in use. *)
Theorem create_then_list_first (t0 : timestamp) (qs : list request) (t c : str)
    (n : Note) (st' : state) (limit : Z) :
  create_note (final_state t0 qs) t c = (Ok n, st') -> 1 <= limit <= 500 ->
  exists r, list_notes st' limit 0 = Ok (n :: r).
Proof.
  intros Hc Hl. pose proof (Inv_reachable t0 qs) as HI.
  set (st := final_state t0 qs) in *.
  destruct (create_note_cases st t c)
    as [[E _]|[[E _]|[new_id [st'' [_ [I E]]]]]]; rewrite Hc in E; try discriminate.
  injection E as En Est. subst n. rewrite <- Est in I. clear Est.
  pose proof (Inv_create st t c HI) as HI'. rewrite Hc in HI'. simpl in HI'.
  pose proof I as Hs. apply sql_insert_spec in Hs. destruct Hs as [_ [_ Hst']].
  assert (Hn : In (mkNote new_id t c (clock st) (clock st)) (notes st')).
  { rewrite Hst'. simpl. apply in_or_app. right. now left. }
  pose proof (order_by_before _ (inv_nodup _ HI')) as HS.
  assert (HnS : In (mkNote new_id t c (clock st) (clock st)) (order_by (notes st')))
    by (eapply Permutation_in; [symmetry; apply order_by_perm|exact Hn]).
  destruct (order_by (notes st')) as [|h S] eqn:EO; [destruct HnS|].
  assert (h = mkNote new_id t c (clock st) (clock st)) as ->.
  { destruct HnS as [->|HnS]; [reflexivity|exfalso].
    apply StronglySorted_inv in HS. destruct HS as [_ F]. rewrite Forall_forall in F.
    specialize (F _ HnS). unfold before in F. simpl in F.
    assert (Hh : In h (notes st'))
      by (eapply Permutation_in; [apply order_by_perm|rewrite EO; now left]).
    pose proof (inv_rows _ HI') as Hr. rewrite Forall_forall in Hr.
    destruct (Hr h Hh) as [_ [_ [_ Hth]]]. rewrite Hst' in Hth. simpl in Hth.
    rewrite Hst' in Hh. simpl in Hh. apply in_app_or in Hh.
    destruct Hh as [Hh|[Hh|[]]].
    - pose proof (sql_insert_fresh _ _ _ _ _ _ I Hh). lia.
    - rewrite <- Hh in F. simpl in F. lia. }
  unfold list_notes.
  assert (Hq : list_query_valid limit 0 = true)
    by (unfold list_query_valid; rewrite !andb_true_iff, !Z.leb_le; lia).
  rewrite Hq, (list_bind_ok limit 0 Hq) by (unfold max_rowid; lia).
  simpl. rewrite EO. simpl. destruct (Z.to_nat limit) eqn:L; [lia|].
  simpl. eexists. reflexivity.
Qed.

Lemma sql_delete_length (tbl : list Note) (n : Note) :
  NoDup (map id tbl) -> In n tbl -> length (sql_delete tbl (id n)) = (length tbl - 1)%nat.
Proof.
  unfold sql_delete. induction tbl as [|m tbl IH]; simpl; [tauto|].
  intros Hnd Hin. inversion Hnd; subst. destruct Hin as [<-|Hin].
  - rewrite Z.eqb_refl. simpl.
    rewrite forallb_filter_id; [lia|].
    apply forallb_forall. intros x Hx. apply negb_true_iff, Z.eqb_neq.
    intros E. apply H1. rewrite <- E. now apply in_map.
  - destruct (id m =? id n) eqn:E.
    + apply Z.eqb_eq in E. exfalso. apply H1. rewrite E. now apply in_map.
    + simpl. rewrite IH; auto. destruct tbl; [destruct Hin|]. simpl. lia.
Qed.

(** Delete of an id that has a row succeeds (204): exactly that row is
    removed, Get of the id is then NotFound, and every other id reads as
    before; the sequence is kept, so the id is not handed out again. *)
Theorem delete_existing (t0 : timestamp) (qs : list request) (i : Z) (n : Note) :
  select_by_id (notes (final_state t0 qs)) i = Some n ->
  fst (delete_note (final_state t0 qs) i) = Ok tt /\
  get_note (snd (delete_note (final_state t0 qs) i)) i = Err NotFound /\
  length (notes (snd (delete_note (final_state t0 qs) i))) =
    (length (notes (final_state t0 qs)) - 1)%nat /\
  seq (snd (delete_note (final_state t0 qs) i)) = seq (final_state t0 qs) /\
  (forall j, j <> i ->
     get_note (snd (delete_note (final_state t0 qs) i)) j = get_note (final_state t0 qs) j).
Proof.
  intros Hs. pose proof (Inv_reachable t0 qs) as HI.
  set (st := final_state t0 qs) in *.
  apply select_by_id_some in Hs. destruct Hs as [Hin <-].
  pose proof (sql_delete_length _ _ (inv_nodup _ HI) Hin) as Hlen.
  assert (Hpos : (1 <= length (notes st))%nat)
    by (destruct (notes st); [destruct Hin|simpl; lia]).
  pose proof (Inv_id_int st n HI Hin) as Hb.
  assert (Hd : delete_note st (id n) =
               (Ok tt, mkState (sql_delete (notes st) (id n)) (seq st) (clock st))).
  { unfold delete_note. rewrite Hb, Hlen. simpl.
    destruct (_ =? _)%nat eqn:E; [apply Nat.eqb_eq in E; lia|reflexivity]. }
  rewrite Hd. simpl. repeat split; auto.
  - unfold get_note. simpl. now rewrite Hb, select_sql_delete_same.
  - intros j Hj. unfold get_note. simpl.
    destruct (sqlite_int_ok j); simpl; [|reflexivity].
    now rewrite select_sql_delete_other.
Qed.

Lemma coalesce_idem {T} (o : option T) (d : T) : coalesce o (coalesce o d) = coalesce o d.
Proof. destruct o; reflexivity. Qed.

(** Sending the same successful Update again succeeds and leaves title,
    content and [created_at] as the first one left them; only [updated_at]
    is set again, to the current time. *)
Theorem update_repeat (st : state) (i : Z) (t c : option str) (n1 : Note) (st1 : state) :
  update_note st i t c = (Ok n1, st1) ->
  exists n2 st2, update_note st1 i t c = (Ok n2, st2) /\
    id n2 = id n1 /\ title n2 = title n1 /\ content n2 = content n1 /\
    created_at n2 = created_at n1 /\ updated_at n2 = clock st1.
Proof.
  intros Hu.
  destruct (update_note_cases st i t c)
    as [[E _]|[[E _]|[[E _]|[[E _]|[old [V [Hne [Hb [S E]]]]]]]]]; rewrite Hu in E;
    try discriminate.
  injection E as -> ->.
  destruct (update_note_cases
              (mkState (sql_update (notes st) i t c (clock st)) (seq st) (clock st)) i t c)
    as [[_ V']|[[_ [_ E']]|[[_ [_ [_ B']]]|[[_ [_ [_ [_ N]]]]|[old' [_ [_ [_ [S' E']]]]]]]]];
    [congruence|congruence|congruence| |].
  - simpl in N. rewrite (select_sql_update_same _ _ _ _ _ _ S) in N. discriminate.
  - simpl in S'. rewrite (select_sql_update_same _ _ _ _ _ _ S) in S'.
    injection S' as <-. eexists _, _. split; [exact E'|]. simpl.
    now rewrite !coalesce_idem.
Qed.

(** A title longer than 200 characters is a ValidationError (422) for
    Create and for Update, whatever the rest of the request, and nothing
    changes. *)
Theorem overlong_title_rejected (st : state) (i : Z) (t c : str) (c' : option str) :
  (200 < length t)%nat ->
  create_note st t c = (Err ValidationError, st) /\
  update_note st i (Some t) c' = (Err ValidationError, st).
Proof.
  intros Hl. assert (Ht : title_ok t = false).
  { unfold title_ok. apply andb_false_iff. right. apply Nat.leb_gt. exact Hl. }
  unfold create_note, update_note, NoteCreate_valid, NoteUpdate_valid. simpl.
  now rewrite Ht.
Qed.

(** Once the AUTOINCREMENT sequence has reached the largest rowid, a valid
    Create fails with a server error (500) and adds no row. *)
Theorem create_sequence_exhausted (st : state) (t c : str) :
  NoteCreate_valid t c = true -> max_rowid <= seq st ->
  create_note st t c = (Err ServerError, st).
Proof.
  intros Hv Hs. unfold create_note, sql_insert. rewrite Hv. simpl.
  replace (max_rowid <? Z.max (seq st) (max_id (notes st)) + 1) with true
    by (symmetry; apply Z.ltb_lt; lia).
  reflexivity.
Qed.

(** A request that is neither an Update nor a Delete of id [j] leaves the
    note stored under [j] as it was.  Get binds [j] as a 64-bit integer,
    which every stored id is on a reachable state ([Inv_id_int]). *)
Theorem request_isolation (st : state) (q : request) (j : Z) (n : Note) :
  sqlite_int_ok j = true ->
  select_by_id (notes st) j = Some n ->
  (forall t c, q <> Update j t c) -> q <> Delete j ->
  get_note (snd (step st q)) j = Ok n.
Proof.
  intros Hb Hs Hu Hd. unfold get_note. rewrite Hb. simpl.
  enough (select_by_id (notes (snd (step st q))) j = Some n) as -> by reflexivity.
  destruct q as [| | |t c|i t c|i|d]; simpl; auto.
  - destruct (create_note_cases st t c)
      as [[-> _]|[[-> _]|[new_id [st' [_ [I ->]]]]]]; simpl; auto.
    apply sql_insert_spec in I. destruct I as [_ [_ ->]]. simpl.
    now apply select_by_id_app_l.
  - assert (i <> j) by (intros ->; exact (Hu t c eq_refl)).
    destruct (update_note_cases st i t c)
      as [[-> _]|[[-> _]|[[-> _]|[[-> _]|[old [_ [_ [_ [_ ->]]]]]]]]]; simpl; auto.
    rewrite select_sql_update_other; auto.
  - assert (i <> j) by (intros ->; exact (Hd eq_refl)).
    unfold delete_note. destruct (sqlite_int_ok i); simpl; [|exact Hs].
    destruct (_ =? _)%nat; simpl; rewrite select_sql_delete_other; auto.
Qed.

(** ** Witnesses of the further properties *)

Lemma list_notes_pages_witness :
  exists r1 r2,
    list_notes (final_state 10 [Create sA sB; Tick 5; Create sB sA; Create sA sA]) 1 0 = Ok r1 /\
    list_notes (final_state 10 [Create sA sB; Tick 5; Create sB sA; Create sA sA]) 2 (0 + 1)
      = Ok r2 /\
    list_notes (final_state 10 [Create sA sB; Tick 5; Create sB sA; Create sA sA]) (1 + 2) 0
      = Ok (r1 ++ r2).
Proof.
  apply (list_notes_pages (final_state 10 [Create sA sB; Tick 5; Create sB sA; Create sA sA])
           1 2 0); try unfold max_rowid; lia.
Defined.

Lemma list_notes_complete_witness :
  Nat.le (length (notes (final_state 10 [Create sA sB; Tick 5; Create sB sA; Create sA sA])))
         (Z.to_nat 3) /\
  exists r, list_notes (final_state 10 [Create sA sB; Tick 5; Create sB sA; Create sA sA]) 3 0
              = Ok r /\
    Permutation r (notes (final_state 10 [Create sA sB; Tick 5; Create sB sA; Create sA sA])).
Proof.
  split; [vm_compute; lia|].
  apply (list_notes_complete (final_state 10 [Create sA sB; Tick 5; Create sB sA; Create sA sA])
           3); [lia|vm_compute; lia].
Defined.

Lemma list_notes_storage_order_witness :
  list_notes (mkState [mkNote 1 sA sA 0 0; mkNote 2 sB sB 0 0] 2 0) 100 0 =
  list_notes (mkState [mkNote 2 sB sB 0 0; mkNote 1 sA sA 0 0] 2 0) 100 0.
Proof.
  apply list_notes_storage_order; simpl.
  - apply perm_swap.
  - constructor; [simpl; intros [H|[]]; discriminate|].
    constructor; [simpl; tauto|constructor].
Defined.

Lemma create_then_list_first_witness :
  create_note (final_state 10 [Create sA sB]) sB sA
    = (Ok (mkNote 2 sB sA 10 10), final_state 10 [Create sA sB; Create sB sA]) /\
  exists r, list_notes (final_state 10 [Create sA sB; Create sB sA]) 100 0
              = Ok (mkNote 2 sB sA 10 10 :: r).
Proof.
  split; [reflexivity|].
  apply (create_then_list_first 10 [Create sA sB] sB sA (mkNote 2 sB sA 10 10)
           (final_state 10 [Create sA sB; Create sB sA]) 100); [reflexivity|lia].
Defined.

Lemma delete_existing_witness :
  select_by_id (notes (final_state 10 [Create sA sB; Create sB sA])) 1
    = Some (mkNote 1 sA sB 10 10) /\
  fst (delete_note (final_state 10 [Create sA sB; Create sB sA]) 1) = Ok tt /\
  get_note (snd (delete_note (final_state 10 [Create sA sB; Create sB sA]) 1)) 1 = Err NotFound.
Proof.
  split; [reflexivity|].
  destruct (delete_existing 10 [Create sA sB; Create sB sA] 1 (mkNote 1 sA sB 10 10)
              eq_refl) as [H1 [H2 _]].
  split; [exact H1|exact H2].
Defined.

Lemma update_repeat_witness :
  update_note (final_state 10 [Create sA sB]) 1 (Some sB) None
    = (Ok (mkNote 1 sB sB 10 10), mkState [mkNote 1 sB sB 10 10] 1 10) /\
  exists n2 st2, update_note (mkState [mkNote 1 sB sB 10 10] 1 10) 1 (Some sB) None
                   = (Ok n2, st2) /\
    id n2 = 1 /\ title n2 = sB /\ content n2 = sB /\ created_at n2 = 10 /\
    updated_at n2 = 10.
Proof.
  split; [reflexivity|].
  apply (update_repeat (final_state 10 [Create sA sB]) 1 (Some sB) None
           (mkNote 1 sB sB 10 10) (mkState [mkNote 1 sB sB 10 10] 1 10)).
  reflexivity.
Defined.

Lemma overlong_title_rejected_witness :
  Nat.lt 200 (length (repeat 65 201)) /\
  create_note (init 0) (repeat 65 201) sB = (Err ValidationError, init 0) /\
  update_note (init 0) 1 (Some (repeat 65 201)) None = (Err ValidationError, init 0).
Proof.
  split; [rewrite repeat_length; lia|].
  apply overlong_title_rejected. rewrite repeat_length. lia.
Defined.

Lemma create_sequence_exhausted_witness :
  NoteCreate_valid sA sB = true /\
  create_note (mkState [] max_rowid 0) sA sB = (Err ServerError, mkState [] max_rowid 0).
Proof.
  split; [reflexivity|].
  apply create_sequence_exhausted; [reflexivity|simpl; lia].
Defined.

Lemma request_isolation_witness :
  sqlite_int_ok 1 = true /\
  select_by_id (notes (final_state 10 [Create sA sB; Create sB sA])) 1
    = Some (mkNote 1 sA sB 10 10) /\
  get_note (snd (step (final_state 10 [Create sA sB; Create sB sA]) (Delete 2))) 1
    = Ok (mkNote 1 sA sB 10 10).
Proof.
  split; [reflexivity|]. split; [reflexivity|].
  apply request_isolation; [reflexivity|reflexivity|intros t c H; discriminate|discriminate].
Defined.
